(** * bingtiles: the Bing Maps tile system, verified against its Python source

    A shallow embedding of [bingtiles/bingtiles.py] (class [TileSystem]).

    - Python [int] is unbounded: it is [Z], and [&], [|], [<<] are
      [Z.land], [Z.lor], [Z.shiftl] (two's complement on negative numbers,
      as in Python).
    - A Python [float] is a real number [R].  The exceptions of the float
      code are modelled: division by zero, the domain error of [math.log]
      and the OverflowError of an [int] operand too large for a float.
      The rounding of the results is not: the theorems on floats state what
      holds with it as well and say where exact values are meant.
      Comparisons, of which [clip] is made, are exact in Python too.
    - [int / int] is Python 3 true division; its value is the exact
      quotient, a rational [Q] (the float Python returns is that quotient
      whenever it is a double, as for pixel coordinates below 2^53
      divided by 256).
    - [str] is [string], a sequence of 8-bit characters; a function that
      can raise returns a [result], [Raise e] standing for the exception. *)

From Stdlib Require Import ZArith List String Ascii Bool Lia.
From Stdlib Require Import DecimalString.
From Stdlib Require Import QArith Qreduction.
From Stdlib Require Import Reals Qreals Lra.
Import ListNotations.

Local Open Scope string_scope.
Local Open Scope Z_scope.

(* ================================================================= *)
(** ** Python runtime: exceptions, [range], [str], indexing *)

Module Py.

Inductive exn : Type :=
| ValueError (msg : string)
| IndexError (msg : string)
| ZeroDivisionError (msg : string)
| OverflowError (msg : string).

Inductive result (A : Type) : Type :=
| Ok (a : A)
| Raise (e : exn).
Arguments Ok {A} a.
Arguments Raise {A} e.

Definition bind {A B} (m : result A) (k : A -> result B) : result B :=
  match m with
  | Ok a => k a
  | Raise e => Raise e
  end.

(** A [for] loop whose body may raise: the state is threaded through the
    items from left to right and the first exception ends the loop. *)
Fixpoint for_each {S X} (body : S -> X -> result S) (items : list X) (s : S)
  : result S :=
  match items with
  | [] => Ok s
  | x :: rest => bind (body s x) (for_each body rest)
  end.

(** [n; n-1; ...; 1] *)
Fixpoint countdown (n : nat) : list Z :=
  match n with
  | O => []
  | S m => Z.of_nat (S m) :: countdown m
  end.

(** [range(start, 0, -1)]: empty when [start <= 0]. *)
Definition range_down (start : Z) : list Z := countdown (Z.to_nat start).

(** [str(n)] for an [int]. *)
Definition str (n : Z) : string := NilZero.string_of_int (Z.to_int n).

(** [len(s)] *)
Definition len (s : string) : Z := Z.of_nat (String.length s).

(** [s[k]]: negative indices count from the end; out of range raises. *)
Definition getitem (s : string) (k : Z) : result ascii :=
  let k' := if k <? 0 then len s + k else k in
  if k' <? 0 then Raise (IndexError "string index out of range")
  else match String.get (Z.to_nat k') s with
       | Some c => Ok c
       | None => Raise (IndexError "string index out of range")
       end.

(** [a << n] on [int]: a negative shift count raises. *)
Definition lshift (a n : Z) : result Z :=
  if n <? 0 then Raise (ValueError "negative shift count")
  else Ok (Z.shiftl a n).

(** The conversion of an [int] operand of a float operation ([x * n],
    [x / n]): the nearest double, and OverflowError when that is beyond the
    largest one, that is from [2^1024 - 2^970] on.  The value is exact on
    the ints below [2^53] and on the powers of two, which the map sizes
    are. *)
Definition float_of_int (n : Z) : result R :=
  if Z.abs n <? 2 ^ 1024 - 2 ^ 970 then Ok (IZR n)
  else Raise (OverflowError "int too large to convert to float").

(** [a / b] on [float]. *)
Definition fdiv (a b : R) : result R :=
  if Req_dec_T b 0 then Raise (ZeroDivisionError "float division by zero")
  else Ok (a / b)%R.

(** [math.log(a)] *)
Definition log (a : R) : result R :=
  if Rlt_dec 0 a then Ok (ln a)
  else Raise (ValueError "math domain error").

(** [a / b] on [int]: true division.  The value is the exact quotient;
    Python returns the double nearest to it, which is the quotient itself
    on the pixel and tile coordinates below 2^53 divided by 256. *)
Definition truediv (a b : Z) : result Q :=
  if b =? 0 then Raise (ZeroDivisionError "division by zero")
  else Ok (inject_Z a / inject_Z b)%Q.

End Py.

Import Py.

Notation "x <- m ;; k" := (bind m (fun x => k))
  (at level 61, m at next level, right associativity).

(* ================================================================= *)
(** ** Tile and QuadKey conversions *)

(** The body of the loop of [tile_xy_to_quadkey], lines 231-238. *)
Definition quadkey_digit (tile_x tile_y mask : Z) : Z :=
  let digit := 0 in
  let digit := if negb (Z.land tile_x mask =? 0) then digit + 1 else digit in
  let digit := if negb (Z.land tile_y mask =? 0) then digit + 2 else digit in
  digit.

Definition tile_xy_to_quadkey (tile_x tile_y level_of_detail : Z) : string :=
  fold_left
    (fun quadkey i =>
       let mask := Z.shiftl 1 (i - 1) in
       quadkey ++ str (quadkey_digit tile_x tile_y mask))
    (range_down level_of_detail)
    "".

Definition invalid_quadkey : exn := ValueError "Invalid QuadKey digit sequence.".

(** The body of the loop of [quadkey_to_tile_xy], lines 267-278; the state
    is the pair [(tile_x, tile_y)]. *)
Definition quadkey_step (quadkey : string) (level_of_detail : Z)
    (st : Z * Z) (i : Z) : result (Z * Z) :=
  let '(tile_x, tile_y) := st in
  let mask := Z.shiftl 1 (i - 1) in
  c <- getitem quadkey (level_of_detail - i) ;;
  if Ascii.eqb c "0" then Ok (tile_x, tile_y)
  else if Ascii.eqb c "1" then Ok (Z.lor tile_x mask, tile_y)
  else if Ascii.eqb c "2" then Ok (tile_x, Z.lor tile_y mask)
  else if Ascii.eqb c "3" then Ok (Z.lor tile_x mask, Z.lor tile_y mask)
  else Raise invalid_quadkey.

Definition quadkey_to_tile_xy (quadkey : string) : result (Z * Z * Z) :=
  let level_of_detail := len quadkey in
  st <- for_each (quadkey_step quadkey level_of_detail)
                 (range_down level_of_detail) (0, 0) ;;
  let '(tile_x, tile_y) := st in
  Ok (tile_x, tile_y, level_of_detail).

(** [pixel_x / 256] is true division of an [int] by a non-zero literal. *)
Definition pixel_xy_to_tile_xy (pixel_x pixel_y : Z) : result (Q * Q) :=
  tile_x <- truediv pixel_x 256 ;;
  tile_y <- truediv pixel_y 256 ;;
  Ok (tile_x, tile_y).

Definition tile_xy_to_pixel_xy (tile_x tile_y : Z) : Z * Z :=
  let pixel_x := tile_x * 256 in
  let pixel_y := tile_y * 256 in
  (pixel_x, pixel_y).

(* ================================================================= *)
(** ** Projection: latitude/longitude and pixels *)

Section Projection.
Local Open Scope R_scope.

Definition EARTH_RADIUS : Z := 6378137.
Definition MIN_LATITUDE : R := -85.05112878.
Definition MAX_LATITUDE : R := 85.05112878.
Definition MIN_LONGITUDE : R := -180.
Definition MAX_LONGITUDE : R := 180.

(** [min(max(n, min_value), max_value)] *)
Definition clip (n min_value max_value : R) : R :=
  Rmin (Rmax n min_value) max_value.

Definition map_size (level_of_detail : Z) : result Z :=
  lshift 256 level_of_detail.

(** Whether [clip n min_value max_value] returns [n] itself and not one
    of the bounds: [max] and [min] return their first argument unless the
    second is strictly larger, resp. smaller. *)
Definition clip_keeps (n min_value max_value : R) : bool :=
  if Rlt_dec n min_value then false
  else if Rlt_dec max_value n then false
  else true.

(** [float / int], line 67: the int is converted first. *)
Definition ground_resolution (latitude : R) (level_of_detail : Z) : result R :=
  let latitude := clip latitude MIN_LATITUDE MAX_LATITUDE in
  size <- map_size level_of_detail ;;
  fsize <- float_of_int size ;;
  fdiv (cos (latitude * PI / 180) * 2 * PI * IZR EARTH_RADIUS) fsize.

Definition map_scale (latitude : R) (level_of_detail : Z) (screen_dpi : R)
  : result R :=
  res <- ground_resolution latitude level_of_detail ;;
  Ok (res * screen_dpi / 0.0254).

(** [x * map_size] and [y * map_size], lines 120-121, are [float * int]:
    the int is converted first.  The bound [map_size - 1] stays an int,
    and [clip] compares it with the float exactly. *)
Definition latlong_to_pixel_xy (latitude longitude : R) (level_of_detail : Z)
  : result (R * R) :=
  let latitude := clip latitude MIN_LATITUDE MAX_LATITUDE in
  let longitude := clip longitude MIN_LONGITUDE MAX_LONGITUDE in
  let x := (longitude + 180) / 360 in
  let sinLatitude := sin (latitude * PI / 180) in
  ratio <- fdiv (1 + sinLatitude) (1 - sinLatitude) ;;
  l <- log ratio ;;
  let y := 0.5 - l / (4 * PI) in
  map_size <- map_size level_of_detail ;;
  fx <- float_of_int map_size ;;
  let pixel_x := clip (x * fx + 0.5) 0 (IZR map_size - 1) in
  fy <- float_of_int map_size ;;
  let pixel_y := clip (y * fy + 0.5) 0 (IZR map_size - 1) in
  Ok (pixel_x, pixel_y).

(** [clip(pixel, 0, map_size - 1) / map_size], lines 148-149, for a float
    [pixel]: where [clip] returns the float the division is [float / int]
    and converts [map_size]; where it returns the int [0] or the int
    [map_size - 1] the division is the true division of two ints. *)
Definition clip_div (pixel : R) (map_size : Z) : result R :=
  if clip_keeps pixel 0 (IZR map_size - 1)
  then f <- float_of_int map_size ;;
       fdiv (clip pixel 0 (IZR map_size - 1)) f
  else q <- truediv (if Rlt_dec pixel 0 then 0 else map_size - 1)%Z map_size ;;
       Ok (Q2R q).

Definition pixel_xy_to_latlong (pixel_x pixel_y : R) (level_of_detail : Z)
  : result (R * R) :=
  map_size <- map_size level_of_detail ;;
  qx <- clip_div pixel_x map_size ;;
  let x := qx - 0.5 in
  qy <- clip_div pixel_y map_size ;;
  let y := 0.5 - qy in
  let latitude := 90 - 360 * atan (exp (- y * 2 * PI)) / PI in
  let longitude := 360 * x in
  Ok (latitude, longitude).

End Projection.

(* ================================================================= *)
(** ** Auxiliary definitions used to state and prove the properties *)

(** The alphabet of a QuadKey. *)
Definition quad_alphabet : list ascii := ["0"; "1"; "2"; "3"]%char.

Definition is_quad_digit (c : ascii) : bool :=
  Ascii.eqb c "0" || Ascii.eqb c "1" || Ascii.eqb c "2" || Ascii.eqb c "3".

Fixpoint all_quad_digits (s : string) : bool :=
  match s with
  | EmptyString => true
  | String c s' => is_quad_digit c && all_quad_digits s'
  end.

(** [s[n:]] *)
Fixpoint drop (n : nat) (s : string) : string :=
  match n, s with
  | O, _ => s
  | S _, EmptyString => EmptyString
  | S m, String _ s' => drop m s'
  end.

(** The branch of [quadkey_step] taken for the character [c]. *)
Definition digit_step (c : ascii) (mask : Z) (st : Z * Z) : result (Z * Z) :=
  let '(tile_x, tile_y) := st in
  if Ascii.eqb c "0" then Ok (tile_x, tile_y)
  else if Ascii.eqb c "1" then Ok (Z.lor tile_x mask, tile_y)
  else if Ascii.eqb c "2" then Ok (tile_x, Z.lor tile_y mask)
  else if Ascii.eqb c "3" then Ok (Z.lor tile_x mask, Z.lor tile_y mask)
  else Raise invalid_quadkey.

(** The decoding loop read off the characters that remain: the first
    character of [s] owns bit [length s - 1]. *)
Fixpoint decode_from (s : string) (st : Z * Z) : result (Z * Z) :=
  match s with
  | EmptyString => Ok st
  | String c s' =>
      bind (digit_step c (2 ^ Z.of_nat (String.length s')) st) (decode_from s')
  end.

(** The bits that the digits of [s] contribute to [tile_x] and [tile_y]. *)
Fixpoint quad_x (s : string) : Z :=
  match s with
  | EmptyString => 0
  | String c s' =>
      Z.lor (if Ascii.eqb c "1" || Ascii.eqb c "3"
             then 2 ^ Z.of_nat (String.length s') else 0)
            (quad_x s')
  end.

Fixpoint quad_y (s : string) : Z :=
  match s with
  | EmptyString => 0
  | String c s' =>
      Z.lor (if Ascii.eqb c "2" || Ascii.eqb c "3"
             then 2 ^ Z.of_nat (String.length s') else 0)
            (quad_y s')
  end.

(** The digit that bit [m] of the tile coordinates produces. *)
Definition bit_digit (tile_x tile_y : Z) (m : Z) : Z :=
  Z.b2z (Z.testbit tile_x m) + 2 * Z.b2z (Z.testbit tile_y m).

(** The character of that digit. *)
Definition bit_char (tile_x tile_y : Z) (m : Z) : ascii :=
  match Z.testbit tile_x m, Z.testbit tile_y m with
  | false, false => "0"
  | true, false => "1"
  | false, true => "2"
  | true, true => "3"
  end.

(** The QuadKey as the encoding loop builds it, most significant digit
    first. *)
Fixpoint digits (tile_x tile_y : Z) (n : nat) : string :=
  match n with
  | O => ""
  | S m => str (bit_digit tile_x tile_y (Z.of_nat m)) ++ digits tile_x tile_y m
  end.

(* ================================================================= *)
(** ** Strings *)

Section Strings.

Lemma append_nil_r (s : string) : s ++ "" = s.
Proof. induction s as [|c s IH]; simpl; [reflexivity | now rewrite IH]. Qed.

Lemma append_assoc (s t u : string) : (s ++ t) ++ u = s ++ (t ++ u).
Proof. induction s as [|c s IH]; simpl; [reflexivity | now rewrite IH]. Qed.

Lemma get_Some_lt (s : string) :
  forall n, (n < String.length s)%nat -> exists c, String.get n s = Some c.
Proof.
  induction s as [|c s IH]; intros n Hn; simpl in *; [lia |].
  destruct n as [|n]; [now exists c |].
  apply IH. lia.
Qed.

Lemma drop_0 (s : string) : drop 0 s = s.
Proof. now destruct s. Qed.

Lemma drop_get (s : string) :
  forall n c, String.get n s = Some c -> drop n s = String c (drop (S n) s).
Proof.
  induction s as [|a s IH]; intros n c H; simpl in H; [discriminate |].
  destruct n as [|n]; simpl.
  - now injection H as ->.
  - now apply IH.
Qed.

Lemma length_drop (s : string) :
  forall n, String.length (drop n s) = (String.length s - n)%nat.
Proof.
  induction s as [|a s IH]; intros [|n]; simpl; try reflexivity.
  apply IH.
Qed.

(** In-range indexing never raises. *)
Lemma getitem_get (s : string) (k : nat) (c : ascii) :
  String.get k s = Some c -> getitem s (Z.of_nat k) = Ok c.
Proof.
  intros H. unfold getitem.
  destruct (Z.ltb_spec (Z.of_nat k) 0) as [Hk|Hk]; [lia |].
  destruct (Z.ltb_spec (Z.of_nat k) 0); [lia |].
  now rewrite Nat2Z.id, H.
Qed.

End Strings.

(* ================================================================= *)
(** ** Bits *)

Section Bits.

Lemma land_pow2 (a m : Z) :
  0 <= m -> Z.land a (2 ^ m) = if Z.testbit a m then 2 ^ m else 0.
Proof.
  intros Hm. apply Z.bits_inj'. intros i Hi.
  rewrite Z.land_spec, Z.pow2_bits_eqb by assumption.
  destruct (Z.eqb_spec m i) as [->|Hne].
  - destruct (Z.testbit a i); simpl.
    + now rewrite Z.pow2_bits_eqb, Z.eqb_refl.
    + now rewrite Z.bits_0.
  - rewrite andb_false_r.
    destruct (Z.testbit a m).
    + rewrite Z.pow2_bits_eqb by assumption.
      symmetry. now apply Z.eqb_neq.
    + now rewrite Z.bits_0.
Qed.

Lemma quadkey_digit_bits (tile_x tile_y m : Z) :
  0 <= m -> quadkey_digit tile_x tile_y (Z.shiftl 1 m) = bit_digit tile_x tile_y m.
Proof.
  intros Hm. unfold quadkey_digit, bit_digit.
  rewrite Z.shiftl_1_l, !land_pow2 by assumption.
  assert (Hpos : 0 < 2 ^ m) by (apply Z.pow_pos_nonneg; lia).
  assert (Hnz : (2 ^ m =? 0) = false) by (apply Z.eqb_neq; lia).
  destruct (Z.testbit tile_x m), (Z.testbit tile_y m);
    rewrite ?Hnz; reflexivity.
Qed.

Lemma str_bit_digit (tile_x tile_y m : Z) :
  str (bit_digit tile_x tile_y m) = String (bit_char tile_x tile_y m) "".
Proof.
  unfold bit_digit, bit_char.
  destruct (Z.testbit tile_x m), (Z.testbit tile_y m); reflexivity.
Qed.

Lemma bit_char_alphabet (tile_x tile_y m : Z) :
  In (bit_char tile_x tile_y m) quad_alphabet.
Proof.
  unfold bit_char, quad_alphabet.
  destruct (Z.testbit tile_x m), (Z.testbit tile_y m); simpl; auto.
Qed.

(** Adding bit [m] to the low [m] bits gives the low [m + 1] bits. *)
Lemma mod_pow2_succ (a m : Z) :
  0 <= m ->
  Z.lor (if Z.testbit a m then 2 ^ m else 0) (a mod 2 ^ m) = a mod 2 ^ (m + 1).
Proof.
  intros Hm. apply Z.bits_inj'. intros i Hi.
  rewrite Z.lor_spec, !Z.testbit_mod_pow2 by lia.
  destruct (Z.ltb_spec i m) as [Hlt|Hge].
  - destruct (Z.ltb_spec i (m + 1)); [| lia].
    destruct (Z.testbit a m).
    + rewrite Z.pow2_bits_eqb by assumption.
      replace (m =? i) with false by (symmetry; apply Z.eqb_neq; lia).
      reflexivity.
    + now rewrite Z.bits_0.
  - simpl. rewrite orb_false_r.
    destruct (Z.eqb_spec m i) as [->|Hne].
    + destruct (Z.ltb_spec i (i + 1)); [| lia]. simpl.
      destruct (Z.testbit a i) eqn:E.
      * now rewrite Z.pow2_bits_eqb, Z.eqb_refl.
      * now rewrite Z.bits_0.
    + destruct (Z.ltb_spec i (m + 1)); [lia |]. simpl.
      destruct (Z.testbit a m).
      * rewrite Z.pow2_bits_eqb by assumption. now apply Z.eqb_neq.
      * now rewrite Z.bits_0.
Qed.

(** A bit below [2 ^ n] or-ed into a number below [2 ^ n] stays below. *)
Lemma lor_below_pow2 (a b n : Z) :
  0 <= n -> 0 <= a < 2 ^ n -> 0 <= b < 2 ^ n -> 0 <= Z.lor a b < 2 ^ n.
Proof.
  intros Hn Ha Hb.
  assert (H0 : 0 <= Z.lor a b) by (apply Z.lor_nonneg; lia).
  split; [assumption |].
  destruct (Z.eq_dec (Z.lor a b) 0) as [E|E].
  - rewrite E. apply Z.pow_pos_nonneg; lia.
  - assert (Hpos : 0 < n).
    { destruct (Z.eq_dec n 0) as [->|]; [| lia].
      change (2 ^ 0) with 1 in *.
      replace a with 0 in E by lia. replace b with 0 in E by lia.
      now elim E. }
    apply Z.log2_lt_pow2; [lia |].
    rewrite Z.log2_lor by lia.
    apply Z.max_lub_lt.
    + destruct (Z.eq_dec a 0) as [->|]; [exact Hpos |].
      apply Z.log2_lt_pow2; lia.
    + destruct (Z.eq_dec b 0) as [->|]; [exact Hpos |].
      apply Z.log2_lt_pow2; lia.
Qed.

End Bits.

(* ================================================================= *)
(** ** The encoding loop *)

Section Encode.
Variables tile_x tile_y : Z.

Lemma digits_cons (m : nat) :
  digits tile_x tile_y (S m)
  = String (bit_char tile_x tile_y (Z.of_nat m)) (digits tile_x tile_y m).
Proof. simpl. now rewrite str_bit_digit. Qed.

(** The accumulator of the loop grows on the right. *)
Lemma encode_loop (n : nat) :
  forall acc,
    fold_left
      (fun quadkey i =>
         let mask := Z.shiftl 1 (i - 1) in
         quadkey ++ str (quadkey_digit tile_x tile_y mask))
      (countdown n) acc
    = acc ++ digits tile_x tile_y n.
Proof.
  induction n as [|n IH]; intros acc.
  - simpl. now rewrite append_nil_r.
  - change (countdown (S n)) with (Z.of_nat (S n) :: countdown n).
    cbn [fold_left]. rewrite IH.
    replace (Z.of_nat (S n) - 1) with (Z.of_nat n) by lia.
    rewrite quadkey_digit_bits by lia.
    rewrite append_assoc. reflexivity.
Qed.

Lemma tile_xy_to_quadkey_digits (level_of_detail : Z) :
  tile_xy_to_quadkey tile_x tile_y level_of_detail
  = digits tile_x tile_y (Z.to_nat level_of_detail).
Proof. unfold tile_xy_to_quadkey, range_down. now rewrite encode_loop. Qed.

Lemma length_digits (n : nat) : String.length (digits tile_x tile_y n) = n.
Proof.
  induction n as [|n IH]; [reflexivity |].
  rewrite digits_cons. simpl. now rewrite IH.
Qed.

Lemma get_digits (n : nat) :
  forall p, (p < n)%nat ->
    String.get p (digits tile_x tile_y n)
    = Some (bit_char tile_x tile_y (Z.of_nat (n - 1 - p))).
Proof.
  induction n as [|n IH]; intros p Hp; [lia |].
  rewrite digits_cons. destruct p as [|p]; cbn [String.get].
  - do 3 f_equal. lia.
  - rewrite IH by lia. do 3 f_equal. lia.
Qed.

Lemma digits_alphabet (n : nat) :
  Forall (fun c => In c quad_alphabet)
         (list_ascii_of_string (digits tile_x tile_y n)).
Proof.
  induction n as [|n IH]; [constructor |].
  rewrite digits_cons. simpl. constructor; [apply bit_char_alphabet | exact IH].
Qed.

Lemma quad_x_digits (n : nat) :
  quad_x (digits tile_x tile_y n) = tile_x mod 2 ^ Z.of_nat n.
Proof.
  induction n as [|n IH].
  - simpl. now rewrite Z.mod_1_r.
  - rewrite digits_cons. cbn [quad_x]. rewrite length_digits, IH.
    rewrite Nat2Z.inj_succ, <- Z.add_1_r, <- mod_pow2_succ by lia.
    f_equal. unfold bit_char.
    destruct (Z.testbit tile_x (Z.of_nat n)), (Z.testbit tile_y (Z.of_nat n));
      reflexivity.
Qed.

Lemma quad_y_digits (n : nat) :
  quad_y (digits tile_x tile_y n) = tile_y mod 2 ^ Z.of_nat n.
Proof.
  induction n as [|n IH].
  - simpl. now rewrite Z.mod_1_r.
  - rewrite digits_cons. cbn [quad_y]. rewrite length_digits, IH.
    rewrite Nat2Z.inj_succ, <- Z.add_1_r, <- mod_pow2_succ by lia.
    f_equal. unfold bit_char.
    destruct (Z.testbit tile_x (Z.of_nat n)), (Z.testbit tile_y (Z.of_nat n));
      reflexivity.
Qed.

End Encode.

(** Only the bits below [n] reach the digits. *)
Lemma digits_ext (n : nat) (x y x' y' : Z) :
  (forall m, 0 <= m < Z.of_nat n -> Z.testbit x m = Z.testbit x' m) ->
  (forall m, 0 <= m < Z.of_nat n -> Z.testbit y m = Z.testbit y' m) ->
  digits x y n = digits x' y' n.
Proof.
  induction n as [|n IH]; intros Hx Hy; [reflexivity |].
  cbn [digits]. unfold bit_digit.
  rewrite Hx, Hy by lia.
  rewrite IH; [reflexivity | |]; intros m Hm; [apply Hx | apply Hy]; lia.
Qed.

(* ================================================================= *)
(** ** The decoding loop *)

Section Decode.

Lemma quadkey_step_digit (quadkey : string) (lod : Z) (st : Z * Z) (i : Z) :
  quadkey_step quadkey lod st i
  = bind (getitem quadkey (lod - i))
         (fun c => digit_step c (Z.shiftl 1 (i - 1)) st).
Proof. now destruct st. Qed.

(** With [m] iterations left, the index loop has reached the suffix of
    length [m]. *)
Lemma decode_loop (quadkey : string) (m : nat) :
  (m <= String.length quadkey)%nat ->
  forall st,
    for_each (quadkey_step quadkey (len quadkey)) (countdown m) st
    = decode_from (drop (String.length quadkey - m) quadkey) st.
Proof.
  induction m as [|m IH]; intros Hm st.
  - rewrite Nat.sub_0_r.
    assert (E : drop (String.length quadkey) quadkey = "").
    { clear. induction quadkey as [|c s IHs]; [reflexivity | exact IHs]. }
    now rewrite E.
  - change (countdown (S m)) with (Z.of_nat (S m) :: countdown m).
    cbn [for_each]. rewrite quadkey_step_digit.
    destruct (get_Some_lt quadkey (String.length quadkey - S m)) as [c Hc];
      [lia |].
    replace (len quadkey - Z.of_nat (S m))
      with (Z.of_nat (String.length quadkey - S m)) by (unfold len; lia).
    rewrite (getitem_get _ _ _ Hc). cbn [bind].
    rewrite (drop_get _ _ _ Hc).
    replace (S (String.length quadkey - S m))
      with (String.length quadkey - m)%nat by lia.
    cbn [decode_from]. rewrite length_drop.
    replace (String.length quadkey - (String.length quadkey - m))%nat
      with m by lia.
    replace (Z.of_nat (S m) - 1) with (Z.of_nat m) by lia.
    rewrite Z.shiftl_1_l.
    destruct (digit_step c (2 ^ Z.of_nat m) st) as [st'|e]; cbn [bind];
      [apply IH; lia | reflexivity].
Qed.

Local Ltac digit_case IH :=
  cbn [bind Ascii.eqb Bool.eqb orb andb]; rewrite IH;
  rewrite ?Z.lor_0_l, ?Z.lor_assoc; reflexivity.

(** What the remaining characters do to the state. *)
Lemma decode_from_spec (s : string) :
  forall x y,
    decode_from s (x, y)
    = if all_quad_digits s
      then Ok (Z.lor x (quad_x s), Z.lor y (quad_y s))
      else Raise invalid_quadkey.
Proof.
  induction s as [|c s IH]; intros x y.
  - simpl. now rewrite !Z.lor_0_r.
  - cbn [decode_from all_quad_digits quad_x quad_y digit_step].
    unfold is_quad_digit.
    destruct (Ascii.eqb_spec c "0") as [->|H0]; [digit_case IH |].
    destruct (Ascii.eqb_spec c "1") as [->|H1]; [digit_case IH |].
    destruct (Ascii.eqb_spec c "2") as [->|H2]; [digit_case IH |].
    destruct (Ascii.eqb_spec c "3") as [->|H3]; [digit_case IH |].
    reflexivity.
Qed.

Lemma quadkey_to_tile_xy_spec (quadkey : string) :
  quadkey_to_tile_xy quadkey
  = if all_quad_digits quadkey
    then Ok (quad_x quadkey, quad_y quadkey, len quadkey)
    else Raise invalid_quadkey.
Proof.
  unfold quadkey_to_tile_xy, range_down, len.
  rewrite Nat2Z.id.
  fold (len quadkey).
  rewrite decode_loop by lia.
  rewrite Nat.sub_diag, drop_0, decode_from_spec.
  destruct (all_quad_digits quadkey); reflexivity.
Qed.

Lemma all_quad_digits_Forall (s : string) :
  all_quad_digits s = true
  <-> Forall (fun c => In c quad_alphabet) (list_ascii_of_string s).
Proof.
  assert (Hc : forall c, is_quad_digit c = true <-> In c quad_alphabet).
  { intros c. unfold is_quad_digit, quad_alphabet. simpl.
    rewrite !orb_true_iff, !Ascii.eqb_eq. intuition congruence. }
  induction s as [|c s IH]; simpl.
  - split; [constructor | reflexivity].
  - rewrite andb_true_iff, Hc, IH. split.
    + intros [? ?]. now constructor.
    + intros H. inversion H; subst. now split.
Qed.

Lemma quad_x_range (s : string) : 0 <= quad_x s < 2 ^ Z.of_nat (String.length s).
Proof.
  induction s as [|c s IH]; [simpl; lia |].
  cbn [quad_x String.length]. rewrite Nat2Z.inj_succ, <- Z.add_1_r.
  assert (Hp : 0 < 2 ^ Z.of_nat (String.length s))
    by (apply Z.pow_pos_nonneg; lia).
  assert (Hd : 2 ^ (Z.of_nat (String.length s) + 1)
               = 2 * 2 ^ Z.of_nat (String.length s))
    by (rewrite Z.pow_add_r by lia; lia).
  apply lor_below_pow2; [lia | | lia].
  destruct (_ || _)%bool; lia.
Qed.

Lemma quad_y_range (s : string) : 0 <= quad_y s < 2 ^ Z.of_nat (String.length s).
Proof.
  induction s as [|c s IH]; [simpl; lia |].
  cbn [quad_y String.length]. rewrite Nat2Z.inj_succ, <- Z.add_1_r.
  assert (Hp : 0 < 2 ^ Z.of_nat (String.length s))
    by (apply Z.pow_pos_nonneg; lia).
  assert (Hd : 2 ^ (Z.of_nat (String.length s) + 1)
               = 2 * 2 ^ Z.of_nat (String.length s))
    by (rewrite Z.pow_add_r by lia; lia).
  apply lor_below_pow2; [lia | | lia].
  destruct (_ || _)%bool; lia.
Qed.

End Decode.

(* ================================================================= *)
(** ** Properties of the QuadKey conversions *)

Lemma digits_all_quad_digits (tile_x tile_y : Z) (n : nat) :
  all_quad_digits (digits tile_x tile_y n) = true.
Proof. apply all_quad_digits_Forall, digits_alphabet. Qed.

Lemma all_quad_digits_false (s : string) :
  all_quad_digits s = false
  <-> Exists (fun c => ~ In c quad_alphabet) (list_ascii_of_string s).
Proof.
  split.
  - intros H. induction s as [|c s IH]; [discriminate |].
    simpl in *. destruct (is_quad_digit c) eqn:E.
    + apply Exists_cons_tl, IH, H.
    + apply Exists_cons_hd. intros Hin.
      unfold is_quad_digit in E. unfold quad_alphabet in Hin. simpl in Hin.
      destruct Hin as [<-|[<-|[<-|[<-|[]]]]]; discriminate.
  - intros H. destruct (all_quad_digits s) eqn:E; [| reflexivity].
    apply all_quad_digits_Forall in E.
    apply Exists_exists in H. destruct H as (c & Hin & Hn).
    rewrite Forall_forall in E. now elim Hn; apply E.
Qed.

(** C1. Encoding a tile of level [lod] and decoding the QuadKey gives the
    tile and the level back: for [0 <= lod] and
    [0 <= tile_x, tile_y < 2 ^ lod],
    [quadkey_to_tile_xy (tile_xy_to_quadkey tile_x tile_y lod)] returns
    exactly [(tile_x, tile_y, lod)]. *)
Theorem quadkey_roundtrip (tile_x tile_y lod : Z) :
  0 <= lod ->
  0 <= tile_x < 2 ^ lod ->
  0 <= tile_y < 2 ^ lod ->
  quadkey_to_tile_xy (tile_xy_to_quadkey tile_x tile_y lod)
  = Ok (tile_x, tile_y, lod).
Proof.
  intros Hl Hx Hy.
  rewrite tile_xy_to_quadkey_digits, quadkey_to_tile_xy_spec.
  rewrite digits_all_quad_digits, quad_x_digits, quad_y_digits.
  unfold len. rewrite length_digits, Z2Nat.id by assumption.
  now rewrite !Z.mod_small by assumption.
Qed.

Lemma quadkey_roundtrip_witness :
  (0 <= 3 /\ 0 <= 5 < 2 ^ 3 /\ 0 <= 3 < 2 ^ 3)
  /\ quadkey_to_tile_xy (tile_xy_to_quadkey 5 3 3) = Ok (5, 3, 3).
Proof.
  split; [lia |].
  apply (quadkey_roundtrip 5 3 3); lia.
Defined.

(** C3. [quadkey_to_tile_xy] raises exactly when some character of the
    QuadKey is outside ['0'..'3'], the exception is then the ValueError
    "Invalid QuadKey digit sequence.", and on every string over
    ['0'..'3'] it returns a triple. *)
Theorem quadkey_to_tile_xy_error (quadkey : string) :
  ((exists e, quadkey_to_tile_xy quadkey = Raise e)
   <-> Exists (fun c => ~ In c quad_alphabet) (list_ascii_of_string quadkey))
  /\ (forall e, quadkey_to_tile_xy quadkey = Raise e ->
               e = ValueError "Invalid QuadKey digit sequence.")
  /\ (Forall (fun c => In c quad_alphabet) (list_ascii_of_string quadkey) ->
      exists tile_x tile_y level_of_detail,
        quadkey_to_tile_xy quadkey = Ok (tile_x, tile_y, level_of_detail)).
Proof.
  rewrite quadkey_to_tile_xy_spec, <- all_quad_digits_false,
    <- all_quad_digits_Forall.
  destruct (all_quad_digits quadkey); repeat split.
  - intros [e He]. discriminate.
  - discriminate.
  - discriminate.
  - intros _. now eexists _, _, _.
  - intros _. now exists invalid_quadkey.
  - intros e He. now injection He as <-.
  - discriminate.
Qed.

Lemma quadkey_to_tile_xy_error_witness :
  (exists e, quadkey_to_tile_xy "9" = Raise e)
  /\ (exists tile_x tile_y level_of_detail,
        quadkey_to_tile_xy "0123" = Ok (tile_x, tile_y, level_of_detail)).
Proof.
  split.
  - apply (proj1 (quadkey_to_tile_xy_error "9")).
    apply Exists_cons_hd. simpl. intuition discriminate.
  - apply (proj2 (proj2 (quadkey_to_tile_xy_error "0123"))).
    repeat (apply Forall_cons; [simpl; auto 6 |]). apply Forall_nil.
Defined.

(** C4. For a positive [lod] and [0 <= tile_x, tile_y < 2 ^ lod] the
    QuadKey has length [lod], every character is one of ['0'..'3'], and
    the character at position [p] is the decimal digit
    [bit (lod-1-p) of tile_x + 2 * bit (lod-1-p) of tile_y]; the four
    examples of the specification evaluate as stated. *)
Theorem tile_xy_to_quadkey_spec (tile_x tile_y lod : Z) :
  0 < lod ->
  0 <= tile_x < 2 ^ lod ->
  0 <= tile_y < 2 ^ lod ->
  len (tile_xy_to_quadkey tile_x tile_y lod) = lod
  /\ Forall (fun c => In c quad_alphabet)
            (list_ascii_of_string (tile_xy_to_quadkey tile_x tile_y lod))
  /\ (forall p, 0 <= p < lod ->
        exists c,
          getitem (tile_xy_to_quadkey tile_x tile_y lod) p = Ok c
          /\ String c ""
             = str (Z.b2z (Z.testbit tile_x (lod - 1 - p))
                    + 2 * Z.b2z (Z.testbit tile_y (lod - 1 - p))))
  /\ tile_xy_to_quadkey 3 3 2 = "33"
  /\ tile_xy_to_quadkey 0 0 2 = "00"
  /\ tile_xy_to_quadkey 1 0 1 = "1"
  /\ tile_xy_to_quadkey 0 1 1 = "2".
Proof.
  intros Hl _ _.
  rewrite tile_xy_to_quadkey_digits.
  repeat split.
  - unfold len. rewrite length_digits. lia.
  - apply digits_alphabet.
  - intros p Hp.
    exists (bit_char tile_x tile_y (lod - 1 - p)). split.
    + rewrite <- (Z2Nat.id p) at 1 by lia.
      apply getitem_get. rewrite get_digits by lia.
      do 2 f_equal. lia.
    + symmetry. apply str_bit_digit.
Qed.

Lemma tile_xy_to_quadkey_spec_witness :
  (0 < 3 /\ 0 <= 5 < 2 ^ 3 /\ 0 <= 3 < 2 ^ 3)
  /\ len (tile_xy_to_quadkey 5 3 3) = 3
  /\ getitem (tile_xy_to_quadkey 5 3 3) 1 = Ok "2"%char.
Proof.
  split; [lia |].
  destruct (tile_xy_to_quadkey_spec 5 3 3) as (Hlen & _ & Hget & _); try lia.
  split; [exact Hlen |].
  destruct (Hget 1) as (c & Hc & Hs); [lia |].
  rewrite Hc. now injection Hs as ->.
Defined.

(** C7. At level 0 the QuadKey is the empty string whatever the tile
    coordinates, and the empty QuadKey decodes to [(0, 0, 0)]. *)
Theorem quadkey_level_zero (tile_x tile_y : Z) :
  tile_xy_to_quadkey tile_x tile_y 0 = ""
  /\ quadkey_to_tile_xy "" = Ok (0, 0, 0).
Proof. split; reflexivity. Qed.

(** C9. Whenever [quadkey_to_tile_xy] returns [(tile_x, tile_y, lod)],
    [lod] is the length of the QuadKey and [0 <= tile_x < 2 ^ lod] and
    [0 <= tile_y < 2 ^ lod]. *)
Theorem quadkey_to_tile_xy_range (quadkey : string) (tile_x tile_y lod : Z) :
  quadkey_to_tile_xy quadkey = Ok (tile_x, tile_y, lod) ->
  lod = len quadkey
  /\ 0 <= tile_x < 2 ^ lod
  /\ 0 <= tile_y < 2 ^ lod.
Proof.
  rewrite quadkey_to_tile_xy_spec.
  destruct (all_quad_digits quadkey); [| discriminate].
  intros H. injection H as <- <- <-.
  split; [reflexivity |].
  split; [apply quad_x_range | apply quad_y_range].
Qed.

Lemma quadkey_to_tile_xy_range_witness :
  quadkey_to_tile_xy "213" = Ok (3, 5, 3)
  /\ 3 = len "213" /\ 0 <= 3 < 2 ^ 3 /\ 0 <= 5 < 2 ^ 3.
Proof.
  split; [reflexivity |].
  apply (quadkey_to_tile_xy_range "213" 3 5 3). reflexivity.
Defined.

(** C10. Only the low [lod] bits of the tile coordinates reach the
    QuadKey: for [0 <= lod] and any integers [tile_x], [tile_y]
    (non-negative ones in particular, also beyond [2 ^ lod]),
    [tile_xy_to_quadkey tile_x tile_y lod] is the QuadKey of
    [(tile_x mod 2 ^ lod, tile_y mod 2 ^ lod)]; nothing is rejected. *)
Theorem tile_xy_to_quadkey_wraps (tile_x tile_y lod : Z) :
  0 <= lod ->
  tile_xy_to_quadkey tile_x tile_y lod
  = tile_xy_to_quadkey (tile_x mod 2 ^ lod) (tile_y mod 2 ^ lod) lod.
Proof.
  intros Hl. rewrite !tile_xy_to_quadkey_digits.
  apply digits_ext; intros m Hm;
    rewrite Z.testbit_mod_pow2 by assumption;
    (destruct (Z.ltb_spec m lod); [reflexivity | lia]).
Qed.

Lemma tile_xy_to_quadkey_wraps_witness :
  0 <= 2
  /\ tile_xy_to_quadkey 13 6 2 = tile_xy_to_quadkey 1 2 2.
Proof.
  split; [lia |].
  apply (tile_xy_to_quadkey_wraps 13 6 2). lia.
Defined.

(* ================================================================= *)
(** ** Pixels and tiles *)

(** The quotient of the true division is the floor quotient exactly on the
    multiples of 256 (for pixels below 2^53 the quotient is the float that
    Python returns). *)
Lemma truediv_256_floor_iff (pixel : Z) :
  Z.abs pixel < 2 ^ 53 ->
  (inject_Z pixel / 256 == inject_Z (pixel / 256))%Q <-> pixel mod 256 = 0.
Proof.
  intros _.
  unfold Qeq, Qdiv, Qmult, Qinv, inject_Z. simpl.
  pose proof (Z.div_mod pixel 256 ltac:(lia)) as H.
  split; intros E; lia.
Qed.

(** Below 2^53 [pixel_xy_to_tile_xy] does not raise, and each component
    is the floor quotient exactly when the pixel coordinate is a multiple
    of 256. *)
Lemma pixel_xy_to_tile_xy_floor_iff (pixel_x pixel_y : Z) :
  Z.abs pixel_x < 2 ^ 53 ->
  Z.abs pixel_y < 2 ^ 53 ->
  exists tile_x tile_y : Q,
    pixel_xy_to_tile_xy pixel_x pixel_y = Ok (tile_x, tile_y)
    /\ ((tile_x == inject_Z (pixel_x / 256))%Q <-> pixel_x mod 256 = 0)
    /\ ((tile_y == inject_Z (pixel_y / 256))%Q <-> pixel_y mod 256 = 0).
Proof.
  intros Hx Hy. eexists _, _. split; [reflexivity |].
  split; apply truediv_256_floor_iff; assumption.
Qed.

(** C2 (the code departs from it). On the pixel [(300, 511)], which lies
    in tile [(1, 1)], [pixel_xy_to_tile_xy] returns the fractions
    [(75/64, 511/256)], that is 1.171875 and 1.99609375, and neither is the
    floor quotient [300 div 256 = 1] or [511 div 256 = 1]. *)
Theorem pixel_xy_to_tile_xy_fractional :
  exists tile_x tile_y : Q,
    pixel_xy_to_tile_xy 300 511 = Ok (tile_x, tile_y)
    /\ (tile_x == 75 # 64)%Q
    /\ (tile_y == 511 # 256)%Q
    /\ ~ (tile_x == inject_Z (300 / 256))%Q
    /\ ~ (tile_y == inject_Z (511 / 256))%Q.
Proof.
  eexists _, _. split; [reflexivity |].
  repeat split; try reflexivity; intros H; discriminate H.
Qed.

(** C6. [tile_xy_to_pixel_xy] returns [(tile_x * 256, tile_y * 256)], and
    this pixel is the upper-left corner of the tile: the pixels whose
    floor quotients by 256 are [(tile_x, tile_y)] are exactly those of the
    256 x 256 block that starts there (so it is not the centre, which
    lies 128 pixels further along both axes). *)
Theorem tile_xy_to_pixel_xy_corner (tile_x tile_y : Z) :
  tile_xy_to_pixel_xy tile_x tile_y = (tile_x * 256, tile_y * 256)
  /\ (forall p q : Z,
        (p / 256 = tile_x /\ q / 256 = tile_y)
        <-> (fst (tile_xy_to_pixel_xy tile_x tile_y) <= p
               < fst (tile_xy_to_pixel_xy tile_x tile_y) + 256
             /\ snd (tile_xy_to_pixel_xy tile_x tile_y) <= q
                  < snd (tile_xy_to_pixel_xy tile_x tile_y) + 256)).
Proof.
  split; [reflexivity |].
  intros p q. simpl.
  pose proof (Z.div_mod p 256 ltac:(lia)) as Hp.
  pose proof (Z.mod_pos_bound p 256 ltac:(lia)) as Hp'.
  pose proof (Z.div_mod q 256 ltac:(lia)) as Hq.
  pose proof (Z.mod_pos_bound q 256 ltac:(lia)) as Hq'.
  split.
  - intros [<- <-]. lia.
  - intros [H1 H2]. split.
    + symmetry. apply (Z.div_unique p 256 tile_x (p - tile_x * 256)); lia.
    + symmetry. apply (Z.div_unique q 256 tile_y (q - tile_y * 256)); lia.
Qed.

(* ================================================================= *)
(** ** Projection *)

Section ProjectionFacts.
Local Open Scope R_scope.

Lemma clip_range (n lo hi : R) : lo <= hi -> lo <= clip n lo hi <= hi.
Proof.
  intros H. unfold clip, Rmin, Rmax.
  destruct (Rle_dec n lo); destruct (Rle_dec _ hi); lra.
Qed.

Lemma clip_id (n lo hi : R) : lo <= n <= hi -> clip n lo hi = n.
Proof.
  intros H. unfold clip, Rmin, Rmax.
  destruct (Rle_dec n lo); destruct (Rle_dec _ hi); lra.
Qed.

Lemma map_size_value (lod : Z) :
  (0 <= lod)%Z -> map_size lod = Ok (256 * 2 ^ lod)%Z.
Proof.
  intros H. unfold map_size, lshift.
  destruct (Z.ltb_spec lod 0); [lia |].
  now rewrite Z.shiftl_mul_pow2.
Qed.

Lemma map_size_ge_256 (lod : Z) : (0 <= lod)%Z -> 256 <= IZR (256 * 2 ^ lod).
Proof.
  intros H. apply IZR_le.
  assert (0 < 2 ^ lod)%Z by (apply Z.pow_pos_nonneg; lia). lia.
Qed.

(** The map sizes up to level 1015 are floats; the later ones are not. *)
Lemma float_of_map_size (lod : Z) :
  (0 <= lod <= 1015)%Z ->
  float_of_int (256 * 2 ^ lod) = Ok (IZR (256 * 2 ^ lod)).
Proof.
  intros H. unfold float_of_int.
  assert (H0 : (0 < 2 ^ lod)%Z) by (apply Z.pow_pos_nonneg; lia).
  assert (H1 : (2 ^ lod <= 2 ^ 1015)%Z) by (apply Z.pow_le_mono_r; lia).
  assert (E1 : (2 ^ 1024 = 512 * 2 ^ 1015)%Z) by reflexivity.
  assert (E2 : (2 ^ 970 < 2 ^ 1015)%Z) by reflexivity.
  assert (E3 : (0 < 2 ^ 1015)%Z) by reflexivity.
  destruct (Z.ltb_spec (Z.abs (256 * 2 ^ lod)) (2 ^ 1024 - 2 ^ 970)) as [_|N];
    [reflexivity |].
  exfalso. rewrite Z.abs_eq in N by lia.
  revert H1 E1 E2 E3 N.
  generalize (2 ^ lod)%Z (2 ^ 1015)%Z (2 ^ 1024)%Z (2 ^ 970)%Z. intros. lia.
Qed.

Lemma float_of_map_size_overflow (lod : Z) :
  (1016 <= lod)%Z ->
  float_of_int (256 * 2 ^ lod)
  = Raise (OverflowError "int too large to convert to float").
Proof.
  intros H. unfold float_of_int.
  assert (H1 : (2 ^ 1016 <= 2 ^ lod)%Z) by (apply Z.pow_le_mono_r; lia).
  assert (E1 : (2 ^ 1024 = 256 * 2 ^ 1016)%Z) by reflexivity.
  assert (E2 : (0 < 2 ^ 970)%Z) by reflexivity.
  destruct (Z.ltb_spec (Z.abs (256 * 2 ^ lod)) (2 ^ 1024 - 2 ^ 970)) as [N|_];
    [| reflexivity].
  exfalso. rewrite Z.abs_eq in N by lia.
  revert H1 E1 E2 N.
  generalize (2 ^ lod)%Z (2 ^ 1016)%Z (2 ^ 1024)%Z (2 ^ 970)%Z. intros. lia.
Qed.

(** The clipped latitude stays away from the poles, where the
    projection is singular. *)
Lemma sin_clipped_latitude (latitude : R) :
  -1 < sin (clip latitude MIN_LATITUDE MAX_LATITUDE * PI / 180) < 1.
Proof.
  pose proof (clip_range latitude MIN_LATITUDE MAX_LATITUDE) as Hc.
  unfold MIN_LATITUDE, MAX_LATITUDE in *.
  set (l := clip latitude _ _) in *.
  assert (Hl : -85.05112878 <= l <= 85.05112878) by (apply Hc; lra).
  clear Hc. pose proof PI_RGT_0 as Hpi.
  assert (Hlo : - (PI / 2) < l * PI / 180) by nra.
  assert (Hhi : l * PI / 180 < PI / 2) by nra.
  assert (H1 : sin (- (PI / 2)) < sin (l * PI / 180))
    by (apply sin_increasing_1; lra).
  assert (H2 : sin (l * PI / 180) < sin (PI / 2))
    by (apply sin_increasing_1; lra).
  rewrite sin_neg, sin_PI2 in H1. rewrite sin_PI2 in H2. lra.
Qed.

(** Up to its last two lines [latlong_to_pixel_xy] does not raise on a
    level [0 <= lod]: what is left is the conversion of the map size. *)
Lemma latlong_to_pixel_xy_conversion (latitude longitude : R) (lod : Z) :
  (0 <= lod)%Z ->
  let size := (256 * 2 ^ lod)%Z in
  let s := sin (clip latitude MIN_LATITUDE MAX_LATITUDE * PI / 180) in
  let x := (clip longitude MIN_LONGITUDE MAX_LONGITUDE + 180) / 360 in
  let y := 0.5 - ln ((1 + s) / (1 - s)) / (4 * PI) in
  latlong_to_pixel_xy latitude longitude lod
  = (fx <- float_of_int size ;;
     fy <- float_of_int size ;;
     Ok (clip (x * fx + 0.5) 0 (IZR size - 1),
         clip (y * fy + 0.5) 0 (IZR size - 1))).
Proof.
  intros Hl size s x y. unfold latlong_to_pixel_xy.
  pose proof (sin_clipped_latitude latitude) as Hs. fold s in Hs |- *.
  unfold fdiv. destruct (Req_dec_T (1 - s) 0) as [E|_]; [lra |].
  cbn [bind]. unfold log.
  destruct (Rlt_dec 0 ((1 + s) / (1 - s))) as [_|N].
  2:{ elim N. apply Rdiv_lt_0_compat; lra. }
  cbn [bind]. rewrite (map_size_value lod Hl). reflexivity.
Qed.

(** Below the exceptions: what [latlong_to_pixel_xy] computes. *)
Lemma latlong_to_pixel_xy_value (latitude longitude : R) (lod : Z) :
  (0 <= lod <= 1015)%Z ->
  let size := IZR (256 * 2 ^ lod) in
  let s := sin (clip latitude MIN_LATITUDE MAX_LATITUDE * PI / 180) in
  let x := (clip longitude MIN_LONGITUDE MAX_LONGITUDE + 180) / 360 in
  let y := 0.5 - ln ((1 + s) / (1 - s)) / (4 * PI) in
  latlong_to_pixel_xy latitude longitude lod
  = Ok (clip (x * size + 0.5) 0 (size - 1), clip (y * size + 0.5) 0 (size - 1)).
Proof.
  intros Hl size s x y.
  rewrite latlong_to_pixel_xy_conversion by lia. cbv zeta.
  now rewrite float_of_map_size by assumption.
Qed.

Lemma latlong_to_pixel_xy_overflow (latitude longitude : R) (lod : Z) :
  (1016 <= lod)%Z ->
  latlong_to_pixel_xy latitude longitude lod
  = Raise (OverflowError "int too large to convert to float").
Proof.
  intros Hl.
  rewrite latlong_to_pixel_xy_conversion by lia. cbv zeta.
  now rewrite float_of_map_size_overflow by assumption.
Qed.

Lemma Q2R_quotient (a b : Z) :
  b <> 0%Z -> Q2R (inject_Z a / inject_Z b) = IZR a / IZR b.
Proof.
  intros Hb.
  assert (E : forall z, Q2R (inject_Z z) = IZR z).
  { intros z. unfold Q2R, inject_Z. cbn [Qnum Qden]. rewrite Rinv_1. ring. }
  rewrite Q2R_div, !E; [reflexivity |].
  unfold Qeq, inject_Z. cbn [Qnum Qden]. lia.
Qed.

(** On a map size that is a float, both kinds of division give the
    quotient of the clipped pixel by the size. *)
Lemma clip_div_value (pixel : R) (lod : Z) :
  (0 <= lod <= 1015)%Z ->
  clip_div pixel (256 * 2 ^ lod)
  = Ok (clip pixel 0 (IZR (256 * 2 ^ lod) - 1) / IZR (256 * 2 ^ lod)).
Proof.
  intros Hl. unfold clip_div, clip_keeps.
  pose proof (map_size_ge_256 lod (proj1 Hl)) as Hm.
  assert (Hz : (256 * 2 ^ lod <> 0)%Z).
  { intros E. rewrite E in Hm. lra. }
  set (m := (256 * 2 ^ lod)%Z) in *.
  destruct (Rlt_dec pixel 0) as [Hneg|Hpos].
  - unfold truediv. destruct (Z.eqb_spec m 0); [contradiction |].
    cbn [bind]. rewrite Q2R_quotient by assumption. do 2 f_equal.
    unfold clip, Rmin, Rmax.
    destruct (Rle_dec pixel 0); destruct (Rle_dec _ (IZR m - 1)); lra.
  - destruct (Rlt_dec (IZR m - 1) pixel) as [Hbig|Hin].
    + unfold truediv. destruct (Z.eqb_spec m 0); [contradiction |].
      cbn [bind]. rewrite Q2R_quotient by assumption. do 2 f_equal.
      rewrite minus_IZR. unfold clip, Rmin, Rmax.
      destruct (Rle_dec pixel 0); destruct (Rle_dec _ (IZR m - 1)); lra.
    + unfold m. rewrite float_of_map_size by assumption. cbn [bind].
      fold m. unfold fdiv.
      destruct (Req_dec_T (IZR m) 0) as [E|_]; [lra | reflexivity].
Qed.

Lemma pixel_xy_to_latlong_value (pixel_x pixel_y : R) (lod : Z) :
  (0 <= lod <= 1015)%Z ->
  let size := IZR (256 * 2 ^ lod) in
  let x := clip pixel_x 0 (size - 1) / size - 0.5 in
  let y := 0.5 - clip pixel_y 0 (size - 1) / size in
  pixel_xy_to_latlong pixel_x pixel_y lod
  = Ok (90 - 360 * atan (exp (- y * 2 * PI)) / PI, 360 * x).
Proof.
  intros Hl size x y. unfold pixel_xy_to_latlong.
  rewrite (map_size_value lod (proj1 Hl)). cbn [bind].
  rewrite !clip_div_value by assumption. reflexivity.
Qed.

(** C5 (amended). For any latitude and longitude and any level
    [0 <= lod <= 1015], [latlong_to_pixel_xy] returns a pair whose two
    components lie in [[0, map_size lod - 1]], where
    [map_size lod = 256 * 2 ^ lod]; from level 1016 on it returns nothing:
    the map size is too large for a float and the call raises
    OverflowError. *)
Theorem latlong_to_pixel_xy_range (latitude longitude : R) (lod : Z) :
  ((0 <= lod <= 1015)%Z ->
   exists pixel_x pixel_y : R,
     latlong_to_pixel_xy latitude longitude lod = Ok (pixel_x, pixel_y)
     /\ map_size lod = Ok (256 * 2 ^ lod)%Z
     /\ 0 <= pixel_x <= IZR (256 * 2 ^ lod) - 1
     /\ 0 <= pixel_y <= IZR (256 * 2 ^ lod) - 1)
  /\ ((1016 <= lod)%Z ->
      latlong_to_pixel_xy latitude longitude lod
      = Raise (OverflowError "int too large to convert to float")).
Proof.
  split; intros Hl.
  - pose proof (map_size_ge_256 lod (proj1 Hl)) as Hm.
    eexists _, _. split; [apply latlong_to_pixel_xy_value, Hl |].
    split; [apply map_size_value; lia |].
    split; apply clip_range; lra.
  - now apply latlong_to_pixel_xy_overflow.
Qed.

Lemma latlong_to_pixel_xy_range_witness :
  ((0 <= 1 <= 1015)%Z
   /\ exists pixel_x pixel_y : R,
        latlong_to_pixel_xy 45 45 1 = Ok (pixel_x, pixel_y)
        /\ map_size 1 = Ok 512%Z
        /\ 0 <= pixel_x <= 512 - 1
        /\ 0 <= pixel_y <= 512 - 1)
  /\ ((1016 <= 2000)%Z
      /\ latlong_to_pixel_xy 45 45 2000
         = Raise (OverflowError "int too large to convert to float")).
Proof.
  split; (split; [lia |]).
  - apply (proj1 (latlong_to_pixel_xy_range 45 45 1)). lia.
  - apply (proj2 (latlong_to_pixel_xy_range 45 45 2000)). lia.
Defined.

(** C5 as it was stated fails at level 1016: [latlong_to_pixel_xy 0 0 1016]
    raises OverflowError, so it returns no pair of components in
    [[0, map_size 1016 - 1]]. *)
Lemma latlong_to_pixel_xy_range_fails_at_1016 :
  (0 <= 1016)%Z
  /\ latlong_to_pixel_xy 0 0 1016
     = Raise (OverflowError "int too large to convert to float")
  /\ ~ (exists pixel_x pixel_y : R,
          latlong_to_pixel_xy 0 0 1016 = Ok (pixel_x, pixel_y)
          /\ 0 <= pixel_x <= IZR (256 * 2 ^ 1016) - 1
          /\ 0 <= pixel_y <= IZR (256 * 2 ^ 1016) - 1).
Proof.
  assert (E : latlong_to_pixel_xy 0 0 1016
              = Raise (OverflowError "int too large to convert to float"))
    by (apply latlong_to_pixel_xy_overflow; lia).
  split; [lia |]. split; [exact E |].
  intros (px & py & H & _). rewrite E in H. discriminate H.
Qed.


End ProjectionFacts.

(* ================================================================= *)
(** ** Further properties of the QuadKey conversions *)

Section QuadTree.

(** A number below [2 ^ n] has no bit [n]. *)
Lemma testbit_above (a n : Z) : 0 <= n -> 0 <= a < 2 ^ n -> Z.testbit a n = false.
Proof.
  intros Hn Ha. rewrite <- (Z.mod_small a (2 ^ n)) by assumption.
  rewrite Z.testbit_mod_pow2 by assumption.
  now rewrite Z.ltb_irrefl.
Qed.

Lemma testbit_flag (b : bool) (n : Z) :
  0 <= n -> Z.testbit (if b then 2 ^ n else 0) n = b.
Proof.
  intros Hn. destruct b.
  - now rewrite Z.pow2_bits_eqb, Z.eqb_refl.
  - apply Z.bits_0.
Qed.

Lemma testbit_flag_below (b : bool) (n m : Z) :
  0 <= m < n -> Z.testbit (if b then 2 ^ n else 0) m = false.
Proof.
  intros Hm. destruct b.
  - rewrite Z.pow2_bits_eqb by lia. apply Z.eqb_neq. lia.
  - apply Z.bits_0.
Qed.

(** The digits of the decoded coordinates are the QuadKey itself. *)
Lemma digits_quad (s : string) :
  all_quad_digits s = true ->
  digits (quad_x s) (quad_y s) (String.length s) = s.
Proof.
  induction s as [|c s IH]; intros Hs; [reflexivity |].
  cbn [all_quad_digits] in Hs. apply andb_true_iff in Hs as [Hc Hs].
  cbn [String.length]. rewrite digits_cons.
  set (n := Z.of_nat (String.length s)).
  assert (Hn : 0 <= n) by (unfold n; lia).
  pose proof (quad_x_range s) as Hx. pose proof (quad_y_range s) as Hy.
  fold n in Hx, Hy.
  f_equal.
  - unfold bit_char. cbn [quad_x quad_y]. fold n.
    rewrite !Z.lor_spec, !testbit_flag, !testbit_above, !orb_false_r
      by assumption.
    unfold is_quad_digit in Hc.
    destruct (Ascii.eqb_spec c "0") as [->|H0]; [reflexivity |].
    destruct (Ascii.eqb_spec c "1") as [->|H1]; [reflexivity |].
    destruct (Ascii.eqb_spec c "2") as [->|H2]; [reflexivity |].
    destruct (Ascii.eqb_spec c "3") as [->|H3]; [reflexivity |].
    discriminate Hc.
  - transitivity (digits (quad_x s) (quad_y s) (String.length s));
      [| exact (IH Hs)].
    apply digits_ext; intros m Hm; cbn [quad_x quad_y]; fold n;
      rewrite Z.lor_spec, testbit_flag_below by (fold n in Hm; lia);
      reflexivity.
Qed.

(** Halving the tile coordinates drops the last digit. *)
Lemma digits_child (tile_x tile_y : Z) (n : nat) :
  digits tile_x tile_y (S n)
  = digits (tile_x / 2) (tile_y / 2) n ++ String (bit_char tile_x tile_y 0) "".
Proof.
  induction n as [|n IH]; [now rewrite digits_cons |].
  rewrite digits_cons, IH, (digits_cons _ _ n). cbn [append]. f_equal.
  unfold bit_char.
  rewrite !Z.div2_bits by lia.
  now rewrite <- Nat2Z.inj_succ.
Qed.

Lemma lor_double (u v : Z) (b : bool) :
  Z.lor (2 * u) (2 * v + Z.b2z b) = 2 * Z.lor u v + Z.b2z b.
Proof.
  apply Z.bits_inj'. intros i Hi.
  destruct (Z.eq_dec i 0) as [->|Hne].
  - now rewrite Z.lor_spec, Z.testbit_even_0, !Z.testbit_0_r.
  - replace i with (Z.succ (i - 1)) by lia.
    rewrite Z.lor_spec, Z.testbit_even_succ, !Z.testbit_succ_r by lia.
    now rewrite Z.lor_spec.
Qed.

Lemma length_append_digit (s : string) (c : ascii) :
  String.length (s ++ String c "") = S (String.length s).
Proof. induction s as [|a s IH]; simpl; [reflexivity | now rewrite IH]. Qed.

Lemma all_quad_digits_app (s : string) (c : ascii) :
  all_quad_digits (s ++ String c "") = all_quad_digits s && is_quad_digit c.
Proof.
  induction s as [|a s IH]; simpl.
  - now rewrite andb_true_r.
  - now rewrite IH, andb_assoc.
Qed.

Lemma flag_double (b : bool) (n : nat) :
  (if b then 2 ^ Z.of_nat (S n) else 0) = 2 * (if b then 2 ^ Z.of_nat n else 0).
Proof.
  destruct b; [| reflexivity].
  now rewrite Nat2Z.inj_succ, Z.pow_succ_r by lia.
Qed.

Lemma quad_x_app (s : string) (c : ascii) :
  quad_x (s ++ String c "")
  = 2 * quad_x s + Z.b2z (Ascii.eqb c "1" || Ascii.eqb c "3").
Proof.
  induction s as [|a s IH].
  - cbn [append quad_x String.length]. rewrite Z.lor_0_r.
    now destruct (_ || _)%bool.
  - cbn [append quad_x]. rewrite length_append_digit, flag_double, IH.
    apply lor_double.
Qed.

Lemma quad_y_app (s : string) (c : ascii) :
  quad_y (s ++ String c "")
  = 2 * quad_y s + Z.b2z (Ascii.eqb c "2" || Ascii.eqb c "3").
Proof.
  induction s as [|a s IH].
  - cbn [append quad_y String.length]. rewrite Z.lor_0_r.
    now destruct (_ || _)%bool.
  - cbn [append quad_y]. rewrite length_append_digit, flag_double, IH.
    apply lor_double.
Qed.

End QuadTree.

(** X1. Decoding a QuadKey and encoding the result gives the QuadKey back:
    whenever [quadkey_to_tile_xy quadkey] returns [(tile_x, tile_y, lod)],
    [tile_xy_to_quadkey tile_x tile_y lod] is [quadkey]. *)
Theorem quadkey_decode_encode (quadkey : string) (tile_x tile_y lod : Z) :
  quadkey_to_tile_xy quadkey = Ok (tile_x, tile_y, lod) ->
  tile_xy_to_quadkey tile_x tile_y lod = quadkey.
Proof.
  rewrite quadkey_to_tile_xy_spec.
  destruct (all_quad_digits quadkey) eqn:E; [| discriminate].
  intros H. injection H as <- <- <-.
  rewrite tile_xy_to_quadkey_digits. unfold len. rewrite Nat2Z.id.
  now apply digits_quad.
Qed.

Lemma quadkey_decode_encode_witness :
  quadkey_to_tile_xy "0231" = Ok (3, 6, 4)
  /\ tile_xy_to_quadkey 3 6 4 = "0231".
Proof.
  split; [reflexivity |].
  apply (quadkey_decode_encode "0231" 3 6 4). reflexivity.
Defined.

(** X2. Two tiles with the same QuadKey are the same tile at the same
    level: on levels [0 <= lod] and coordinates in [[0, 2 ^ lod)],
    [tile_xy_to_quadkey] is injective in all three arguments. *)
Theorem tile_xy_to_quadkey_injective (x y lod x' y' lod' : Z) :
  0 <= lod -> 0 <= x < 2 ^ lod -> 0 <= y < 2 ^ lod ->
  0 <= lod' -> 0 <= x' < 2 ^ lod' -> 0 <= y' < 2 ^ lod' ->
  tile_xy_to_quadkey x y lod = tile_xy_to_quadkey x' y' lod' ->
  x = x' /\ y = y' /\ lod = lod'.
Proof.
  intros Hl Hx Hy Hl' Hx' Hy'. rewrite !tile_xy_to_quadkey_digits. intros E.
  assert (En : Z.to_nat lod = Z.to_nat lod').
  { rewrite <- (length_digits x y (Z.to_nat lod)), E. apply length_digits. }
  assert (El : lod = lod') by lia. subst lod'.
  pose proof (f_equal quad_x E) as Ex. pose proof (f_equal quad_y E) as Ey.
  rewrite !quad_x_digits in Ex. rewrite !quad_y_digits in Ey.
  rewrite Z2Nat.id in Ex, Ey by assumption.
  rewrite !Z.mod_small in Ex, Ey by assumption.
  auto.
Qed.

Lemma tile_xy_to_quadkey_injective_witness :
  tile_xy_to_quadkey 5 6 4 = tile_xy_to_quadkey (4 + 1) (2 * 3) (2 + 2)
  /\ 5 = 4 + 1 /\ 6 = 2 * 3 /\ 4 = 2 + 2.
Proof.
  split; [reflexivity |].
  apply (tile_xy_to_quadkey_injective 5 6 4 (4 + 1) (2 * 3) (2 + 2));
    try reflexivity; simpl; lia.
Defined.

(** X3. The QuadKey of a tile is the QuadKey of its parent tile
    [(tile_x // 2, tile_y // 2)] one level up, followed by one digit for the
    quadrant [tile_x % 2 + 2 * (tile_y % 2)]. *)
Theorem tile_xy_to_quadkey_child (tile_x tile_y lod : Z) :
  0 <= lod ->
  tile_xy_to_quadkey tile_x tile_y (lod + 1)
  = tile_xy_to_quadkey (tile_x / 2) (tile_y / 2) lod
    ++ str (tile_x mod 2 + 2 * (tile_y mod 2)).
Proof.
  intros Hl. rewrite !tile_xy_to_quadkey_digits.
  replace (Z.to_nat (lod + 1)) with (S (Z.to_nat lod)) by lia.
  rewrite digits_child, <- str_bit_digit. unfold bit_digit.
  now rewrite !Z.bit0_mod.
Qed.

Lemma tile_xy_to_quadkey_child_witness :
  0 <= 2
  /\ tile_xy_to_quadkey 5 6 (2 + 1) = tile_xy_to_quadkey 2 3 2 ++ "1".
Proof.
  split; [lia |].
  apply (tile_xy_to_quadkey_child 5 6 2). lia.
Defined.

(** X4. Appending a digit [d] in [0..3] to a QuadKey that decodes to
    [(tile_x, tile_y, lod)] gives the child tile
    [(2 * tile_x + d % 2, 2 * tile_y + d // 2, lod + 1)]. *)
Theorem quadkey_to_tile_xy_child (quadkey : string) (tile_x tile_y lod d : Z) :
  quadkey_to_tile_xy quadkey = Ok (tile_x, tile_y, lod) ->
  0 <= d <= 3 ->
  quadkey_to_tile_xy (quadkey ++ str d)
  = Ok (2 * tile_x + d mod 2, 2 * tile_y + d / 2, lod + 1).
Proof.
  rewrite !quadkey_to_tile_xy_spec.
  destruct (all_quad_digits quadkey) eqn:E; [| discriminate].
  intros H Hd. injection H as <- <- <-.
  assert (Hc : d = 0 \/ d = 1 \/ d = 2 \/ d = 3) by lia.
  destruct Hc as [-> | [-> | [-> | ->]]];
    (match goal with |- context [str ?k] =>
       change (str k) with (String (bit_char (k mod 2) (k / 2) 0) "")
     end;
     rewrite all_quad_digits_app, E, quad_x_app, quad_y_app;
     unfold len; rewrite length_append_digit, Nat2Z.inj_succ;
     cbn [andb]; reflexivity).
Qed.

Lemma quadkey_to_tile_xy_child_witness :
  (quadkey_to_tile_xy "02" = Ok (0, 1, 2) /\ 0 <= 3 <= 3)
  /\ quadkey_to_tile_xy ("02" ++ str 3) = Ok (2 * 0 + 1, 2 * 1 + 1, 2 + 1).
Proof.
  split; [split; [reflexivity | lia] |].
  apply (quadkey_to_tile_xy_child "02" 0 1 2 3); [reflexivity | lia].
Defined.

(** X5. [tile_xy_to_quadkey] accepts every triple of integers: the result
    has length [max(0, lod)] (the empty string for a negative level) and
    consists of the characters ['0'..'3'] only, also for negative or
    out-of-range tile coordinates. *)
Theorem tile_xy_to_quadkey_total (tile_x tile_y lod : Z) :
  len (tile_xy_to_quadkey tile_x tile_y lod) = Z.max 0 lod
  /\ Forall (fun c => In c quad_alphabet)
            (list_ascii_of_string (tile_xy_to_quadkey tile_x tile_y lod)).
Proof.
  rewrite tile_xy_to_quadkey_digits. split.
  - unfold len. rewrite length_digits. lia.
  - apply digits_alphabet.
Qed.

(** X6. Two QuadKeys that decode to the same tile and level are the same
    string. *)
Theorem quadkey_to_tile_xy_injective (q q' : string) (t : Z * Z * Z) :
  quadkey_to_tile_xy q = Ok t ->
  quadkey_to_tile_xy q' = Ok t ->
  q = q'.
Proof.
  rewrite !quadkey_to_tile_xy_spec.
  destruct (all_quad_digits q) eqn:E; [| discriminate].
  destruct (all_quad_digits q') eqn:E'; [| discriminate].
  intros H H'. rewrite <- H in H'. injection H' as Ex Ey El.
  rewrite <- (digits_quad q E), <- (digits_quad q' E').
  unfold len in El. apply Nat2Z.inj in El. now rewrite Ex, Ey, El.
Qed.

Lemma quadkey_to_tile_xy_injective_witness :
  (quadkey_to_tile_xy "0231" = Ok (3, 6, 4)
   /\ quadkey_to_tile_xy ("02" ++ "31") = Ok (3, 6, 4))
  /\ "0231" = "02" ++ "31".
Proof.
  split; [split; reflexivity |].
  apply (quadkey_to_tile_xy_injective "0231" ("02" ++ "31") (3, 6, 4));
    reflexivity.
Defined.

(* ================================================================= *)
(** ** Further properties of the pixel and tile conversions *)

(** X9. The corner pixel of a tile of level [lod] is a pixel of the map of
    that level, and so is the whole tile: for [0 <= lod] and tile
    coordinates in [[0, 2 ^ lod)], both components returned by
    [tile_xy_to_pixel_xy] lie in [[0, map_size lod - 256]]. *)
Theorem tile_corner_in_map (tile_x tile_y lod : Z) :
  0 <= lod ->
  0 <= tile_x < 2 ^ lod ->
  0 <= tile_y < 2 ^ lod ->
  exists size,
    map_size lod = Ok size
    /\ 0 <= fst (tile_xy_to_pixel_xy tile_x tile_y) <= size - 256
    /\ 0 <= snd (tile_xy_to_pixel_xy tile_x tile_y) <= size - 256.
Proof.
  intros Hl Hx Hy. exists (256 * 2 ^ lod).
  split; [now apply map_size_value |].
  unfold tile_xy_to_pixel_xy. cbn [fst snd]. lia.
Qed.

Lemma tile_corner_in_map_witness :
  (0 <= 2 /\ 0 <= 3 < 2 ^ 2 /\ 0 <= 1 < 2 ^ 2)
  /\ exists size,
       map_size 2 = Ok size
       /\ 0 <= fst (tile_xy_to_pixel_xy 3 1) <= size - 256
       /\ 0 <= snd (tile_xy_to_pixel_xy 3 1) <= size - 256.
Proof.
  split; [lia |].
  apply (tile_corner_in_map 3 1 2); lia.
Defined.

(** X10. [map_size] raises the ValueError of a negative shift count on a
    negative level; on a level [0 <= lod] it returns [256 * 2 ^ lod], at
    least 256, and the next level is twice as large. *)
Theorem map_size_levels (lod : Z) :
  (lod < 0 -> map_size lod = Raise (ValueError "negative shift count"))
  /\ (0 <= lod ->
      exists size,
        map_size lod = Ok size
        /\ size = 256 * 2 ^ lod
        /\ 256 <= size
        /\ map_size (lod + 1) = Ok (2 * size)).
Proof.
  split.
  - intros H. unfold map_size, lshift.
    now destruct (Z.ltb_spec lod 0); [| lia].
  - intros H. exists (256 * 2 ^ lod).
    assert (0 < 2 ^ lod) by (apply Z.pow_pos_nonneg; lia).
    repeat split; [now apply map_size_value | lia |].
    rewrite map_size_value by lia. f_equal.
    rewrite Z.pow_add_r by lia. lia.
Qed.

Lemma map_size_levels_witness :
  (-1 < 0 /\ map_size (-1) = Raise (ValueError "negative shift count"))
  /\ (0 <= 3
      /\ exists size,
           map_size 3 = Ok size /\ size = 256 * 2 ^ 3 /\ 256 <= size
           /\ map_size (3 + 1) = Ok (2 * size)).
Proof.
  split; (split; [lia |]).
  - apply (proj1 (map_size_levels (-1))). lia.
  - apply (proj2 (map_size_levels 3)). lia.
Defined.

(* ================================================================= *)
(** ** Further properties of the projection *)

Section ProjectionMore.
Local Open Scope R_scope.

Lemma clip_mono (a b lo hi : R) : a <= b -> clip a lo hi <= clip b lo hi.
Proof.
  intros H. unfold clip, Rmin, Rmax.
  destruct (Rle_dec a lo); destruct (Rle_dec b lo);
    repeat match goal with |- context [Rle_dec ?u ?v] => destruct (Rle_dec u v) end;
    lra.
Qed.

Lemma clip_idem (n lo hi : R) :
  lo <= hi -> clip (clip n lo hi) lo hi = clip n lo hi.
Proof. intros H. apply clip_id, clip_range, H. Qed.

Lemma clip_opp (n hi : R) : 0 <= hi -> clip (- n) (- hi) hi = - clip n (- hi) hi.
Proof.
  intros H. unfold clip, Rmin, Rmax.
  destruct (Rle_dec (- n) (- hi)); destruct (Rle_dec n (- hi));
    repeat match goal with |- context [Rle_dec ?u ?v] => destruct (Rle_dec u v) end;
    lra.
Qed.

Lemma latitude_bounds : MIN_LATITUDE = - MAX_LATITUDE /\ 0 <= MAX_LATITUDE < 90.
Proof. unfold MIN_LATITUDE, MAX_LATITUDE. lra. Qed.

Lemma clipped_latitude_angle (latitude : R) :
  - (PI / 2) < clip latitude MIN_LATITUDE MAX_LATITUDE * PI / 180 < PI / 2.
Proof.
  destruct latitude_bounds as [E Hmax].
  pose proof (clip_range latitude MIN_LATITUDE MAX_LATITUDE) as Hc.
  set (l := clip latitude _ _) in *.
  assert (Hl : - MAX_LATITUDE <= l <= MAX_LATITUDE) by (rewrite <- E; apply Hc; lra).
  pose proof PI_RGT_0 as Hpi. split; nra.
Qed.

Lemma size_double (lod : Z) :
  (0 <= lod)%Z -> IZR (256 * 2 ^ (lod + 1)) = 2 * IZR (256 * 2 ^ lod).
Proof.
  intros H. rewrite <- mult_IZR. f_equal.
  rewrite Z.pow_add_r by lia. lia.
Qed.

Lemma ground_resolution_value (latitude : R) (lod : Z) :
  (0 <= lod <= 1015)%Z ->
  ground_resolution latitude lod
  = Ok (cos (clip latitude MIN_LATITUDE MAX_LATITUDE * PI / 180) * 2 * PI
        * IZR EARTH_RADIUS / IZR (256 * 2 ^ lod)).
Proof.
  intros Hl. unfold ground_resolution.
  rewrite (map_size_value lod (proj1 Hl)). cbn [bind].
  rewrite float_of_map_size by assumption. cbn [bind].
  pose proof (map_size_ge_256 lod (proj1 Hl)) as Hm.
  unfold fdiv. destruct (Req_dec_T _ 0) as [E|_]; [lra | reflexivity].
Qed.

(** X11. On a negative level every function that needs the map size raises
    the ValueError of the negative shift count: [ground_resolution],
    [map_scale], [latlong_to_pixel_xy] and [pixel_xy_to_latlong], whatever
    their other arguments. *)
Theorem negative_level_raises
    (latitude longitude screen_dpi pixel_x pixel_y : R) (lod : Z) :
  (lod < 0)%Z ->
  let e := ValueError "negative shift count" in
  ground_resolution latitude lod = Raise e
  /\ map_scale latitude lod screen_dpi = Raise e
  /\ latlong_to_pixel_xy latitude longitude lod = Raise e
  /\ pixel_xy_to_latlong pixel_x pixel_y lod = Raise e.
Proof.
  intros Hl e.
  assert (Hm : map_size lod = Raise e).
  { unfold map_size, lshift. now destruct (Z.ltb_spec lod 0); [| lia]. }
  assert (Hg : ground_resolution latitude lod = Raise e)
    by (unfold ground_resolution; now rewrite Hm).
  repeat split.
  - exact Hg.
  - unfold map_scale. now rewrite Hg.
  - unfold latlong_to_pixel_xy.
    pose proof (sin_clipped_latitude latitude) as Hs.
    set (s := sin _) in *.
    unfold fdiv. destruct (Req_dec_T (1 - s) 0) as [E|_]; [lra |].
    cbn [bind]. unfold log.
    destruct (Rlt_dec 0 ((1 + s) / (1 - s))) as [_|N].
    2:{ elim N. apply Rdiv_lt_0_compat; lra. }
    cbn [bind]. now rewrite Hm.
  - unfold pixel_xy_to_latlong. now rewrite Hm.
Qed.

Lemma negative_level_raises_witness :
  (-1 < 0)%Z
  /\ latlong_to_pixel_xy 45 45 (-1) = Raise (ValueError "negative shift count").
Proof.
  split; [lia |].
  apply (negative_level_raises 45 45 96 0 0 (-1)). lia.
Defined.

(** X12. With [min_value <= max_value], [clip] lands in
    [[min_value, max_value]], leaves the values of that interval unchanged,
    is idempotent and is monotone in the number clipped. *)
Theorem clip_properties (n m lo hi : R) :
  lo <= hi ->
  lo <= clip n lo hi <= hi
  /\ (lo <= n <= hi -> clip n lo hi = n)
  /\ clip (clip n lo hi) lo hi = clip n lo hi
  /\ (n <= m -> clip n lo hi <= clip m lo hi).
Proof.
  intros H. split; [now apply clip_range |].
  split; [apply clip_id |].
  split; [now apply clip_idem | apply clip_mono].
Qed.

Lemma clip_properties_witness :
  0 <= 255
  /\ 0 <= clip 500 0 255 <= 255
  /\ (0 <= 500 <= 255 -> clip 500 0 255 = 500)
  /\ clip (clip 500 0 255) 0 255 = clip 500 0 255
  /\ (500 <= 600 -> clip 500 0 255 <= clip 600 0 255).
Proof.
  split; [lra |].
  apply (clip_properties 500 600 0 255). lra.
Defined.

(** X13. With the bounds the wrong way round, [max_value < min_value],
    [clip] returns [max_value] whatever the number. *)
Theorem clip_inverted_bounds (n lo hi : R) : hi < lo -> clip n lo hi = hi.
Proof.
  intros H. unfold clip, Rmin, Rmax.
  destruct (Rle_dec n lo); destruct (Rle_dec _ hi); lra.
Qed.

Lemma clip_inverted_bounds_witness : 0 < 255 /\ clip 100 255 0 = 0.
Proof.
  split; [lra |].
  apply (clip_inverted_bounds 100 255 0). lra.
Defined.

(** X14. On a level [0 <= lod <= 1015], [ground_resolution] returns a
    positive number of metres per pixel that is largest at the equator, is
    the same at [latitude] and [- latitude], and is halved by the next
    level; from level 1016 on, where the map size is too large for a
    float, it raises OverflowError. *)
Theorem ground_resolution_properties (latitude : R) (lod : Z) :
  ((0 <= lod <= 1015)%Z ->
   exists r equator : R,
     ground_resolution latitude lod = Ok r
     /\ ground_resolution 0 lod = Ok equator
     /\ 0 < r <= equator
     /\ ground_resolution (- latitude) lod = Ok r
     /\ ((lod < 1015)%Z -> ground_resolution latitude (lod + 1) = Ok (r / 2)))
  /\ ((1016 <= lod)%Z ->
      ground_resolution latitude lod
      = Raise (OverflowError "int too large to convert to float")).
Proof.
  split; intros Hl.
  - destruct latitude_bounds as [Emin Hmax].
    pose proof (map_size_ge_256 lod (proj1 Hl)) as Hm.
    pose proof PI_RGT_0 as Hpi.
    pose proof (clipped_latitude_angle latitude) as Ha.
    assert (Hr : 0 < IZR EARTH_RADIUS) by (apply IZR_lt; reflexivity).
    assert (Hcos : 0 < cos (clip latitude MIN_LATITUDE MAX_LATITUDE * PI / 180))
      by (apply cos_gt_0; lra).
    pose proof (COS_bound (clip latitude MIN_LATITUDE MAX_LATITUDE * PI / 180))
      as [_ Hc1].
    eexists _, _.
    split; [apply ground_resolution_value, Hl |].
    split.
    { rewrite ground_resolution_value by assumption.
      rewrite (clip_id 0) by (rewrite Emin; lra).
      replace (0 * PI / 180) with 0 by lra. rewrite cos_0, Rmult_1_l.
      reflexivity. }
    set (c := cos _) in *. set (size := IZR (256 * 2 ^ lod)) in *.
    assert (Hk : 0 < 2 * PI * IZR EARTH_RADIUS / size)
      by (apply Rdiv_lt_0_compat; nra).
    assert (Ec : c * 2 * PI * IZR EARTH_RADIUS / size
                 = c * (2 * PI * IZR EARTH_RADIUS / size))
      by (unfold Rdiv; ring).
    split; [rewrite Ec; split; nra |].
    split.
    + rewrite ground_resolution_value by assumption.
      rewrite Emin, clip_opp by lra.
      replace (- clip latitude (- MAX_LATITUDE) MAX_LATITUDE * PI / 180)
        with (- (clip latitude (- MAX_LATITUDE) MAX_LATITUDE * PI / 180))
        by (unfold Rdiv; ring).
      rewrite cos_neg, <- Emin. reflexivity.
    + intros Hlt. rewrite ground_resolution_value by lia.
      rewrite size_double by lia. fold c size. f_equal.
      unfold Rdiv. rewrite Rinv_mult. ring.
  - unfold ground_resolution.
    rewrite map_size_value by lia. cbn [bind].
    now rewrite float_of_map_size_overflow by assumption.
Qed.

Lemma ground_resolution_properties_witness :
  ((0 <= 1 <= 1015)%Z
   /\ exists r equator : R,
        ground_resolution 45 1 = Ok r
        /\ ground_resolution 0 1 = Ok equator
        /\ 0 < r <= equator
        /\ ground_resolution (- 45) 1 = Ok r
        /\ ((1 < 1015)%Z -> ground_resolution 45 (1 + 1) = Ok (r / 2)))
  /\ ((1016 <= 1016)%Z
      /\ ground_resolution 45 1016
         = Raise (OverflowError "int too large to convert to float")).
Proof.
  split; (split; [lia |]).
  - apply (proj1 (ground_resolution_properties 45 1)). lia.
  - apply (proj2 (ground_resolution_properties 45 1016)). lia.
Defined.

(** X16. Out-of-range coordinates are clamped, not rejected:
    [latlong_to_pixel_xy] gives for any latitude and longitude what it
    gives for the clipped ones; in particular every latitude at or beyond
    [MAX_LATITUDE] (the north pole included) maps like [MAX_LATITUDE], and
    every longitude at or beyond [MAX_LONGITUDE] like [MAX_LONGITUDE]. *)
Theorem latlong_to_pixel_xy_saturates (latitude longitude : R) (lod : Z) :
  latlong_to_pixel_xy latitude longitude lod
  = latlong_to_pixel_xy (clip latitude MIN_LATITUDE MAX_LATITUDE)
                        (clip longitude MIN_LONGITUDE MAX_LONGITUDE) lod
  /\ (MAX_LATITUDE <= latitude ->
      latlong_to_pixel_xy latitude longitude lod
      = latlong_to_pixel_xy MAX_LATITUDE longitude lod)
  /\ (MAX_LONGITUDE <= longitude ->
      latlong_to_pixel_xy latitude longitude lod
      = latlong_to_pixel_xy latitude MAX_LONGITUDE lod).
Proof.
  destruct latitude_bounds as [Emin Hmax].
  assert (Hlon : MIN_LONGITUDE <= MAX_LONGITUDE)
    by (unfold MIN_LONGITUDE, MAX_LONGITUDE; lra).
  assert (Hlat : MIN_LATITUDE <= MAX_LATITUDE) by lra.
  split; [| split].
  - unfold latlong_to_pixel_xy. now rewrite !clip_idem by assumption.
  - intros H. unfold latlong_to_pixel_xy.
    replace (clip latitude MIN_LATITUDE MAX_LATITUDE)
      with (clip MAX_LATITUDE MIN_LATITUDE MAX_LATITUDE); [reflexivity |].
    rewrite clip_id by lra.
    unfold clip, Rmin, Rmax.
    destruct (Rle_dec latitude MIN_LATITUDE); destruct (Rle_dec _ MAX_LATITUDE);
      lra.
  - intros H. unfold latlong_to_pixel_xy.
    replace (clip longitude MIN_LONGITUDE MAX_LONGITUDE)
      with (clip MAX_LONGITUDE MIN_LONGITUDE MAX_LONGITUDE); [reflexivity |].
    rewrite clip_id by lra.
    unfold clip, Rmin, Rmax.
    destruct (Rle_dec longitude MIN_LONGITUDE);
      destruct (Rle_dec _ MAX_LONGITUDE); lra.
Qed.

Lemma latlong_to_pixel_xy_saturates_witness :
  MAX_LATITUDE <= 90
  /\ latlong_to_pixel_xy 90 10 3 = latlong_to_pixel_xy MAX_LATITUDE 10 3.
Proof.
  assert (H : MAX_LATITUDE <= 90) by (unfold MAX_LATITUDE; lra).
  split; [exact H |].
  apply (proj1 (proj2 (latlong_to_pixel_xy_saturates 90 10 3))). exact H.
Defined.

(** X17. On a level [0 <= lod <= 1015], going east never decreases
    [pixel_x], whatever the two latitudes. *)
Theorem latlong_to_pixel_xy_monotone (lat1 lon1 lat2 lon2 : R) (lod : Z) :
  (0 <= lod <= 1015)%Z ->
  lon1 <= lon2 ->
  exists x1 y1 x2 y2 : R,
    latlong_to_pixel_xy lat1 lon1 lod = Ok (x1, y1)
    /\ latlong_to_pixel_xy lat2 lon2 lod = Ok (x2, y2)
    /\ x1 <= x2.
Proof.
  intros Hl Hlon.
  pose proof (latlong_to_pixel_xy_value lat1 lon1 lod Hl) as V1.
  pose proof (latlong_to_pixel_xy_value lat2 lon2 lod Hl) as V2.
  cbv zeta in V1, V2.
  eexists _, _, _, _. split; [exact V1 |]. split; [exact V2 |].
  pose proof (map_size_ge_256 lod (proj1 Hl)) as Hm.
  apply clip_mono.
  pose proof (clip_mono lon1 lon2 MIN_LONGITUDE MAX_LONGITUDE Hlon) as Hc.
  apply Rplus_le_compat_r, Rmult_le_compat_r; lra.
Qed.

Lemma latlong_to_pixel_xy_monotone_witness :
  ((0 <= 1 <= 1015)%Z /\ -30 <= 45)
  /\ exists x1 y1 x2 y2 : R,
       latlong_to_pixel_xy 10 (-30) 1 = Ok (x1, y1)
       /\ latlong_to_pixel_xy 45 45 1 = Ok (x2, y2)
       /\ x1 <= x2.
Proof.
  split; [split; [lia | lra] |].
  apply (latlong_to_pixel_xy_monotone 10 (-30) 45 45 1); [lia | lra].
Defined.

(** X18. The horizontal pixel coordinate never reaches 0: on a level
    [0 <= lod <= 1015], [pixel_x] lies in [[0.5, map_size - 1]]; it is 0.5
    for every longitude at or west of -180 and [map_size - 1] for every
    longitude at or east of 180. *)
Theorem latlong_to_pixel_xy_x (latitude longitude : R) (lod : Z) :
  (0 <= lod <= 1015)%Z ->
  let size := IZR (256 * 2 ^ lod) in
  exists pixel_x pixel_y : R,
    latlong_to_pixel_xy latitude longitude lod = Ok (pixel_x, pixel_y)
    /\ 0.5 <= pixel_x <= size - 1
    /\ (longitude <= -180 -> pixel_x = 0.5)
    /\ (180 <= longitude -> pixel_x = size - 1).
Proof.
  intros Hl size.
  pose proof (latlong_to_pixel_xy_value latitude longitude lod Hl) as V.
  cbv zeta in V. fold size in V.
  pose proof (map_size_ge_256 lod (proj1 Hl)) as Hm. fold size in Hm.
  eexists _, _. split; [exact V |]. clear V. clearbody size.
  assert (Hc : forall X, 0 <= X ->
            clip (X + 0.5) 0 (size - 1) = Rmin (X + 0.5) (size - 1)).
  { intros X HX. unfold clip, Rmax.
    destruct (Rle_dec (X + 0.5) 0); [lra | reflexivity]. }
  assert (Hlon : -180 <= clip longitude MIN_LONGITUDE MAX_LONGITUDE <= 180)
    by (apply clip_range; unfold MIN_LONGITUDE, MAX_LONGITUDE; lra).
  set (c := clip longitude MIN_LONGITUDE MAX_LONGITUDE) in *.
  assert (HX : 0 <= (c + 180) / 360 * size)
    by (apply Rmult_le_pos; lra).
  rewrite Hc by assumption.
  split; [| split].
  - unfold Rmin. destruct (Rle_dec _ (size - 1)); lra.
  - intros H.
    assert (Ec : c = -180).
    { unfold c, clip, Rmin, Rmax, MIN_LONGITUDE, MAX_LONGITUDE.
      destruct (Rle_dec longitude (-180)); destruct (Rle_dec _ 180); lra. }
    rewrite Ec. unfold Rmin.
    destruct (Rle_dec _ (size - 1)) as [_|N]; [lra | elim N; lra].
  - intros H.
    assert (Ec : c = 180).
    { unfold c, clip, Rmin, Rmax, MIN_LONGITUDE, MAX_LONGITUDE.
      destruct (Rle_dec longitude (-180)); destruct (Rle_dec _ 180); lra. }
    rewrite Ec. unfold Rmin.
    destruct (Rle_dec _ (size - 1)) as [L|_]; [lra | reflexivity].
Qed.

Lemma latlong_to_pixel_xy_x_witness :
  (0 <= 1 <= 1015)%Z
  /\ exists pixel_x pixel_y : R,
       latlong_to_pixel_xy 45 (-200) 1 = Ok (pixel_x, pixel_y)
       /\ 0.5 <= pixel_x <= IZR (256 * 2 ^ 1) - 1
       /\ (-200 <= -180 -> pixel_x = 0.5)
       /\ (180 <= -200 -> pixel_x = IZR (256 * 2 ^ 1) - 1).
Proof.
  split; [lia |].
  apply (latlong_to_pixel_xy_x 45 (-200) 1). lia.
Defined.

(** X19. On a level [0 <= lod <= 1015], [pixel_xy_to_latlong] returns for
    any pixel coordinates, in or out of the map, a latitude strictly
    between -90 and 90 and a longitude in [[-180, 180]]. *)
Theorem pixel_xy_to_latlong_range (pixel_x pixel_y : R) (lod : Z) :
  (0 <= lod <= 1015)%Z ->
  exists latitude longitude : R,
    pixel_xy_to_latlong pixel_x pixel_y lod = Ok (latitude, longitude)
    /\ -90 < latitude < 90
    /\ -180 <= longitude <= 180.
Proof.
  intros Hl.
  pose proof (pixel_xy_to_latlong_value pixel_x pixel_y lod Hl) as V.
  cbv zeta in V.
  pose proof (map_size_ge_256 lod (proj1 Hl)) as Hm.
  set (size := IZR (256 * 2 ^ lod)) in *.
  eexists _, _. split; [exact V |]. clear V. clearbody size.
  pose proof PI_RGT_0 as Hpi.
  split.
  - set (e := exp _).
    assert (He : 0 < e) by apply exp_pos.
    pose proof (atan_bound e) as [_ Hub].
    pose proof (atan_increasing 0 e He) as Hlb. rewrite atan_0 in Hlb.
    set (a := atan e) in *.
    assert (E : 360 * a / PI = 360 * (a / PI)) by (unfold Rdiv; ring).
    assert (H0 : 0 < a / PI) by (apply Rdiv_lt_0_compat; lra).
    assert (H1 : a / PI < / 2).
    { apply (Rmult_lt_reg_r PI); [lra |].
      unfold Rdiv. rewrite Rmult_assoc, Rinv_l by lra. lra. }
    rewrite E. lra.
  - pose proof (clip_range pixel_x 0 (size - 1)) as Hc.
    set (c := clip pixel_x 0 (size - 1)) in *.
    assert (Hc' : 0 <= c <= size - 1) by (apply Hc; lra).
    assert (H0 : 0 <= c / size) by (apply Rmult_le_pos; [lra |];
      left; apply Rinv_0_lt_compat; lra).
    assert (H1 : c / size <= 1).
    { apply (Rmult_le_reg_r size); [lra |].
      unfold Rdiv. rewrite Rmult_assoc, Rinv_l by lra. lra. }
    lra.
Qed.

Lemma pixel_xy_to_latlong_range_witness :
  (0 <= 1 <= 1015)%Z
  /\ exists latitude longitude : R,
       pixel_xy_to_latlong 1000 (-3) 1 = Ok (latitude, longitude)
       /\ -90 < latitude < 90
       /\ -180 <= longitude <= 180.
Proof.
  split; [lia |].
  apply (pixel_xy_to_latlong_range 1000 (-3) 1). lia.
Defined.

(** X20. On a level [0 <= lod <= 1015], a larger [pixel_x] never gives a
    smaller longitude, whatever the two [pixel_y]. *)
Theorem pixel_xy_to_latlong_monotone (x1 y1 x2 y2 : R) (lod : Z) :
  (0 <= lod <= 1015)%Z ->
  x1 <= x2 ->
  exists lat1 lon1 lat2 lon2 : R,
    pixel_xy_to_latlong x1 y1 lod = Ok (lat1, lon1)
    /\ pixel_xy_to_latlong x2 y2 lod = Ok (lat2, lon2)
    /\ lon1 <= lon2.
Proof.
  intros Hl Hx.
  pose proof (pixel_xy_to_latlong_value x1 y1 lod Hl) as V1.
  pose proof (pixel_xy_to_latlong_value x2 y2 lod Hl) as V2.
  cbv zeta in V1, V2.
  pose proof (map_size_ge_256 lod (proj1 Hl)) as Hm.
  set (size := IZR (256 * 2 ^ lod)) in *.
  eexists _, _, _, _. split; [exact V1 |]. split; [exact V2 |].
  clear V1 V2. clearbody size.
  assert (Hinv : 0 < / size) by (apply Rinv_0_lt_compat; lra).
  assert (Hdiv : forall a b, a <= b -> a / size <= b / size).
  { intros a b Hab. unfold Rdiv. apply Rmult_le_compat_r; lra. }
  pose proof (Hdiv _ _ (clip_mono x1 x2 0 (size - 1) Hx)). lra.
Qed.

Lemma pixel_xy_to_latlong_monotone_witness :
  ((0 <= 1 <= 1015)%Z /\ 10 <= 300)
  /\ exists lat1 lon1 lat2 lon2 : R,
       pixel_xy_to_latlong 10 20 1 = Ok (lat1, lon1)
       /\ pixel_xy_to_latlong 300 100 1 = Ok (lat2, lon2)
       /\ lon1 <= lon2.
Proof.
  split; [split; [lia | lra] |].
  apply (pixel_xy_to_latlong_monotone 10 20 300 100 1); [lia | lra].
Defined.

End ProjectionMore.
